(** * Cyber embedding interface (cyber.h): a shallow embedding

  The header [src/cyber.h] declares the C boundary of the Cyber VM: the
  integer typedefs, the result-code enumeration, the sized string [CStr]
  with its [cstr] macro, the callback signatures and the prototypes of the
  VM operations.  The first part of this file embeds what the header itself
  defines.  The bodies of the prototypes are not part of the header; the
  second part models them from the specification, and every such definition
  says so in its doc comment. *)

From Stdlib Require Import ZArith Lia Bool.
From stdpp Require Import gmap strings list fin_maps.

Local Open Scope Z_scope.

(* ===================================================================== *)
(** ** Fixed-width unsigned integers of <stdint.h> *)
(* ===================================================================== *)

Module CInt.

(** A [w]-bit unsigned integer is a [Z] in [0, 2^w); conversion to the type
    reduces modulo [2^w] (C11 6.3.1.3p2). *)
Definition wrap (w z : Z) : Z := z mod 2 ^ w.

Definition in_range (w z : Z) : Prop := 0 <= z < 2 ^ w.

Definition uint8_t (z : Z) : Z := wrap 8 z.
Definition uint32_t (z : Z) : Z := wrap 32 z.
Definition uint64_t (z : Z) : Z := wrap 64 z.

(** [UINT32_MAX] of <stdint.h>: the largest value of [uint32_t]. *)
Definition UINT32_MAX : Z := 2 ^ 32 - 1.

End CInt.

(* ===================================================================== *)
(** ** The declarations of cyber.h *)
(* ===================================================================== *)

Module Header.
Import CInt.

(** [typedef uint64_t CyValue;] *)
Definition CyValue_bits : Z := 64.
Definition CyValue : Type := Z.
Definition as_CyValue (z : Z) : CyValue := wrap CyValue_bits z.
Definition is_CyValue (v : CyValue) : Prop := in_range CyValue_bits v.

(** [const uint32_t CY_NullId = UINT32_MAX;] *)
Definition CY_NullId : Z := uint32_t UINT32_MAX.

(** [typedef enum { CY_Success = 0, CY_ErrorToken, ... } CyResultCode;] *)
Inductive CyResultCode : Type :=
| CY_Success
| CY_ErrorToken
| CY_ErrorParse
| CY_ErrorCompile
| CY_ErrorPanic
| CY_ErrorUnknown.

#[global] Instance CyResultCode_eq_dec : EqDecision CyResultCode.
Proof. solve_decision. Defined.

(** The enumerator list as the header writes it: only [CY_Success] carries
    an initialiser. *)
Definition CyResultCode_enumerators : list (CyResultCode * option Z) :=
  [ (CY_Success, Some 0);
    (CY_ErrorToken, None);
    (CY_ErrorParse, None);
    (CY_ErrorCompile, None);
    (CY_ErrorPanic, None);
    (CY_ErrorUnknown, None) ].

(** C11 6.7.2.2p3: an enumerator with [= e] has value [e]; one without has
    the value of the previous enumerator plus one, the first one [0]. *)
Fixpoint enum_values {A : Type} (next : Z) (decl : list (A * option Z))
  : list (A * Z) :=
  match decl with
  | [] => []
  | (c, init) :: decl' =>
      let v := match init with Some e => e | None => next end in
      (c, v) :: enum_values (v + 1) decl'
  end.

Definition CyResultCode_values : list (CyResultCode * Z) :=
  enum_values 0 CyResultCode_enumerators.

(** The integer an enumerator denotes, and the enumerator an integer
    denotes (none outside the declared values). *)
Definition CyResultCode_to_Z (c : CyResultCode) : option Z :=
  (λ r : nat * (CyResultCode * Z), r.2.2)
    <$> list_find (λ p, p.1 = c) CyResultCode_values.

Definition CyResultCode_of_Z (z : Z) : option CyResultCode :=
  (λ r : nat * (CyResultCode * Z), r.2.1)
    <$> list_find (λ p, p.2 = z) CyResultCode_values.

(** The boolean success test of C: [!rc], that is [rc == 0]. *)
Definition is_success (c : CyResultCode) : bool :=
  bool_decide (CyResultCode_to_Z c = Some 0).

(** A C string is a pointer into a byte buffer; [buffer] holds the bytes
    from the pointer on to the end of the object it points into. *)
Record c_string : Type := CString {
  address : Z;
  buffer : list Z
}.

Definition NUL : Z := 0.

(** [strlen] of <string.h>: the number of bytes before the first NUL.
    Running off the object without meeting a NUL is undefined behaviour:
    [None]. *)
Fixpoint strlen_from (bytes : list Z) : option Z :=
  match bytes with
  | [] => None
  | b :: rest =>
      if decide (b = NUL) then Some 0
      else (λ n, n + 1) <$> strlen_from rest
  end.

Definition strlen (s : c_string) : option Z := strlen_from (buffer s).

(** [s[i]] *)
Definition char_at (s : c_string) (i : Z) : option Z :=
  if decide (0 <= i) then buffer s !! Z.to_nat i else None.

(** [typedef struct CStr { char* charz; size_t len; } CStr;] *)
Record CStr : Type := mkCStr {
  charz : c_string;
  len : Z
}.

(** [#define cstr(X) (CStr){ X, strlen(X) }] *)
Definition cstr (X : c_string) : option CStr :=
  n ← strlen X; Some {| charz := X; len := n |}.

(** Opaque handles: [CyUserVM*] and [CyModule*]. *)
Definition CyUserVM_ptr : Type := Z.
Definition CyModule_ptr : Type := Z.

(** [CyFunc]: pointer to a function of [(CyUserVM* vm, CyValue* args,
    uint8_t nargs)] returning [CyValue]. *)
Definition CyFunc : Type := CyUserVM_ptr → list CyValue → Z → CyValue.

(** A call through a [CyFunc] pointer: the argument count is converted to
    the parameter type [uint8_t], the arguments and the result have type
    [CyValue]. *)
Definition CyFunc_nargs (n : Z) : Z := uint8_t n.

Definition call_CyFunc (f : CyFunc) (vm : CyUserVM_ptr)
    (args : list CyValue) (n : Z) : CyValue :=
  as_CyValue (f vm (as_CyValue <$> args) (CyFunc_nargs n)).

(** The [uint32_t numParams] parameter of [cyVmSetModuleFunc]. *)
Definition numParams_arg (n : Z) : Z := uint32_t n.

End Header.

(* ===================================================================== *)
(** ** IEEE-754 binary64 as bit patterns *)
(* ===================================================================== *)

Module Double.

(** A C [double] is carried as its 64-bit pattern: sign (bit 63), biased
    exponent (bits 62..52) and fraction (bits 51..0).  Equality of patterns
    is bit-exact equality of doubles. *)
Definition double : Type := Z.

Definition is_double (d : double) : Prop := 0 <= d < 2 ^ 64.

Definition sign_bit (d : double) : bool := Z.testbit d 63.
Definition exponent_bits (d : double) : Z := Z.land (Z.shiftr d 52) 0x7FF.
Definition fraction_bits (d : double) : Z := Z.land d (2 ^ 52 - 1).

Definition is_finite (d : double) : bool :=
  negb (exponent_bits d =? 0x7FF).
Definition is_infinite (d : double) : bool :=
  (exponent_bits d =? 0x7FF) && (fraction_bits d =? 0).
Definition is_nan (d : double) : bool :=
  (exponent_bits d =? 0x7FF) && negb (fraction_bits d =? 0).
(** A NaN is quiet when the top fraction bit is set. *)
Definition is_quiet_nan (d : double) : bool :=
  is_nan d && Z.testbit d 51.

Definition pos_infinity : double := 0x7FF0000000000000.
Definition neg_infinity : double := 0xFFF0000000000000.
(** The canonical quiet NaN: quiet bit set, empty payload, sign clear. *)
Definition canonical_qnan : double := 0x7FF8000000000000.

End Double.

(* ===================================================================== *)
(** ** Value encoding *)
(* ===================================================================== *)

Module Value.
Import CInt Header Double.

(** Modelled from the spec: the bodies of [cyValueNone], [cyValueTrue],
    [cyValueFalse], [cyValueNumber] and [cyValueAsDouble] are not in the
    header, which only declares them.  The specification describes the
    64-bit tagged value as NaN-boxing: a double whose quiet-NaN space
    discriminates the non-number variants, with the canonical quiet NaN
    itself remaining a number.  A value is therefore boxed exactly when the
    exponent is all ones and both the quiet bit and the bit below it are
    set; the next field carries the variant tag and the low bits the
    payload. *)
Definition TaggedValueMask : Z := 0x7FFC000000000000.

(** Modelled from the spec: the sign bit on top of the box marks a handle
    to a heap object (the layout is not in the header). *)
Definition SignMask : Z := Z.shiftl 1 63.
Definition PointerMask : Z := Z.lor TaggedValueMask SignMask.

(** Modelled from the spec: the discriminators of the primitive variants
    inside the box (not in the header): one tag for the absence sentinel,
    one for booleans, whose lowest payload bit tells true from false. *)
Definition TagNone : Z := 0.
Definition TagBoolean : Z := 1.
Definition NoneMask : Z := Z.lor TaggedValueMask (Z.shiftl TagNone 32).
Definition BooleanMask : Z := Z.lor TaggedValueMask (Z.shiftl TagBoolean 32).
Definition TrueBitMask : Z := 1.

(** Modelled from the spec: the type predicate the accessor must be gated
    with; a value is a number unless it lies in the boxed quiet-NaN
    space. *)
Definition isNumber (v : CyValue) : bool :=
  negb (Z.land v TaggedValueMask =? TaggedValueMask).

(** Modelled from the spec: a heap-object handle is a boxed value with the
    sign bit set. *)
Definition isPointer (v : CyValue) : bool :=
  Z.land v PointerMask =? PointerMask.

(** Modelled from the spec: constructors of the primitive variants
    (the header only declares [cyValueNone], [cyValueTrue],
    [cyValueFalse]). *)
Definition cyValueNone : CyValue := as_CyValue NoneMask.
Definition cyValueTrue : CyValue := as_CyValue (Z.lor BooleanMask TrueBitMask).
Definition cyValueFalse : CyValue := as_CyValue BooleanMask.

(** Modelled from the spec: [cyValueNumber] (declared only) stores the
    double's bit pattern unchanged. *)
Definition cyValueNumber (n : double) : CyValue := as_CyValue n.

(** Modelled from the spec: [cyValueAsDouble] (declared only) reinterprets
    the 64 bits of a number value as a double; on a value that is not a
    number its behaviour is undefined: [None]. *)
Definition cyValueAsDouble (val : CyValue) : option double :=
  if isNumber val then Some val else None.

(** Modelled from the spec: the public variants of a tagged value as a sum
    (none, bool, number, object handle), which the header leaves to the
    VM; [VOther] is a boxed pattern with no public meaning. *)
Inductive Variant : Type :=
| VNone
| VBool (b : bool)
| VNumber (d : double)
| VObject (handle : Z)
| VOther (bits : Z).

(** Modelled from the spec: the variant a 64-bit pattern encodes. *)
Definition classify (v : CyValue) : Variant :=
  if isNumber v then VNumber v
  else if isPointer v then VObject (Z.land v (Z.lnot PointerMask))
  else if v =? cyValueNone then VNone
  else if v =? cyValueTrue then VBool true
  else if v =? cyValueFalse then VBool false
  else VOther v.

End Value.

(* ===================================================================== *)
(** ** The VM behind the handle *)
(* ===================================================================== *)

Module VM.
Import CInt Header Double Value.

(** One call a loader callback makes back into the registrar:
    [cyVmSetModuleFunc(vm, mod, name, numParams, func)]. *)
Record SetModuleFuncCall : Type := mkSetModuleFunc {
  call_vm : CyUserVM_ptr;
  call_mod : CyModule_ptr;
  call_name : string;
  call_numParams : Z;
  call_func : CyFunc
}.

(** [CyLoadModuleFunc]: pointer to a function of [(CyUserVM* vm,
    CyModule* mod)] returning [void].  Its effect is the sequence of
    registrar calls it issues on the handles it is given. *)
Definition CyLoadModuleFunc : Type :=
  CyUserVM_ptr → CyModule_ptr → list SetModuleFuncCall.

(** Modelled from the spec: the function table behind a module handle
    ([struct CyModule] is opaque in the header); each function is
    identified by (name, arity). *)
Definition CyModule : Type := gmap (string * Z) CyFunc.

(** Modelled from the spec: the states of a module name (section 4.4);
    [Unregistered] is the absence of the name from the registry. *)
Inductive ModuleState : Type :=
| Registered (loader : CyLoadModuleFunc)
| Loading (handle : CyModule_ptr) (table : CyModule)
| Loaded (table : CyModule).

Definition is_unloaded (s : option ModuleState) : bool :=
  match s with
  | None | Some (Registered _) => true
  | Some (Loading _ _) | Some (Loaded _) => false
  end.

(** Modelled from the spec: the observable events of one VM instance: a
    loader callback fires, a script gains access to a module through an
    import, execution of compiled code begins. *)
Inductive Event : Type :=
| EvLoaderInvoked (name : string)
| EvModuleAccess (name : string)
| EvExecute.

#[global] Instance Event_eq_dec : EqDecision Event.
Proof. solve_decision. Defined.

(** Modelled from the spec: the state behind a VM handle ([struct CyUserVM]
    is opaque in the header): module registry, persistent global
    environment, last error report, release obligations of heap objects
    handed to the host, buffers of the allocator gateway.  [trace] logs the
    events, newest first. *)
Record CyUserVM : Type := mkVM {
  live : bool;
  self : CyUserVM_ptr;
  modules : gmap string ModuleState;
  current : option string;
  next_handle : CyModule_ptr;
  globals : gmap string CyValue;
  lastErrorReport : string;
  heap : gmap Z nat;
  buffers : gmap Z Z;
  brk : Z;
  capacity : Z;
  trace : list Event
}.

Definition history (st : CyUserVM) : list Event := reverse (trace st).

Definition with_registry (ms : gmap string ModuleState) (cur : option string)
    (h : CyModule_ptr) (st : CyUserVM) : CyUserVM :=
  mkVM (live st) (self st) ms cur h (globals st) (lastErrorReport st)
       (heap st) (buffers st) (brk st) (capacity st) (trace st).

Definition with_modules (ms : gmap string ModuleState) (st : CyUserVM) : CyUserVM :=
  with_registry ms (current st) (next_handle st) st.

Definition with_globals (g : gmap string CyValue) (st : CyUserVM) : CyUserVM :=
  mkVM (live st) (self st) (modules st) (current st) (next_handle st) g
       (lastErrorReport st) (heap st) (buffers st) (brk st) (capacity st)
       (trace st).

Definition with_report (r : string) (st : CyUserVM) : CyUserVM :=
  mkVM (live st) (self st) (modules st) (current st) (next_handle st)
       (globals st) r (heap st) (buffers st) (brk st) (capacity st)
       (trace st).

Definition with_heap (hp : gmap Z nat) (st : CyUserVM) : CyUserVM :=
  mkVM (live st) (self st) (modules st) (current st) (next_handle st)
       (globals st) (lastErrorReport st) hp (buffers st) (brk st)
       (capacity st) (trace st).

Definition with_buffers (bs : gmap Z Z) (b : Z) (st : CyUserVM) : CyUserVM :=
  mkVM (live st) (self st) (modules st) (current st) (next_handle st)
       (globals st) (lastErrorReport st) (heap st) bs b (capacity st)
       (trace st).

Definition with_live (l : bool) (st : CyUserVM) : CyUserVM :=
  mkVM l (self st) (modules st) (current st) (next_handle st)
       (globals st) (lastErrorReport st) (heap st) (buffers st) (brk st)
       (capacity st) (trace st).

Definition log (e : Event) (st : CyUserVM) : CyUserVM :=
  mkVM (live st) (self st) (modules st) (current st) (next_handle st)
       (globals st) (lastErrorReport st) (heap st) (buffers st) (brk st)
       (capacity st) (e :: trace st).

(** Modelled from the spec: [cyVmCreate] (declared only) returns a fresh
    instance: no loaded modules, no outstanding host values, nothing
    recorded.  [addr] is the handle, [cap] the size of the region the
    allocator gateway serves. *)
Definition cyVmCreate (addr : CyUserVM_ptr) (cap : Z) : CyUserVM :=
  mkVM true addr ∅ None 1 ∅ "" ∅ ∅ 8 cap [].

(** Modelled from the spec: [cyVmDestroy] (declared only) invalidates the
    handle; any later operation on it is undefined. *)
Definition cyVmDestroy (st : CyUserVM) : option CyUserVM :=
  if live st then Some (with_live false st) else None.

(** Modelled from the spec: [cyVmGetLastErrorReport] (declared only)
    returns the diagnostic recorded on the VM. *)
Definition cyVmGetLastErrorReport (st : CyUserVM) : option string :=
  if live st then Some (lastErrorReport st) else None.

(** Modelled from the spec: [cyVmRelease] (declared only) is a no-op on a
    primitive value and discharges one unit of the release obligation of a
    heap object; releasing an object the host holds no obligation for is
    undefined. *)
Definition cyVmRelease (st : CyUserVM) (val : CyValue) : option CyUserVM :=
  if live st then
    match classify val with
    | VObject h =>
        match heap st !! h with
        | Some (S n) =>
            Some (with_heap (if decide (n = 0%nat) then delete h (heap st)
                             else <[h := n]> (heap st)) st)
        | _ => None
        end
    | _ => Some st
    end
  else None.

(** Modelled from the spec: the host receives a value from the VM (part of
    the absent body of [cyVmEval]): a heap object gains one unit of release
    obligation. *)
Definition retain (val : CyValue) (st : CyUserVM) : CyUserVM :=
  match classify val with
  | VObject h =>
      with_heap (<[h := S (default 0%nat (heap st !! h))]> (heap st)) st
  | _ => st
  end.

(** Modelled from the spec: [cyVmAddModuleLoader] (declared only) makes the
    name registered and unloaded; a name whose loader is running or has
    run stays as it is, the loaded module being cached. *)
Definition cyVmAddModuleLoader (st : CyUserVM) (name : string)
    (func : CyLoadModuleFunc) : option CyUserVM :=
  if live st then
    if is_unloaded (modules st !! name)
    then Some (with_modules (<[name := Registered func]> (modules st)) st)
    else Some st
  else None.

(** Modelled from the spec: [cyVmSetModuleFunc] (declared only) installs a
    native function in the module whose loader is running; any other
    module handle is invalid and a duplicate (name, arity) is not defined
    by the boundary: [None]. *)
Definition cyVmSetModuleFunc (st : CyUserVM) (c : SetModuleFuncCall)
    : option CyUserVM :=
  if live st && bool_decide (call_vm c = self st) then
    name ← current st;
    match modules st !! name with
    | Some (Loading h table) =>
        let key := (call_name c, numParams_arg (call_numParams c)) in
        if bool_decide (call_mod c = h) && bool_decide (table !! key = None)
        then Some (with_modules
                     (<[name := Loading h (<[key := call_func c]> table)]>
                        (modules st)) st)
        else None
    | _ => None
    end
  else None.

(** Modelled from the spec: the VM runs the loader callback; these are the
    loader's calls, in the order it issues them. *)
Fixpoint run_loader_calls (st : CyUserVM) (cs : list SetModuleFuncCall)
  : option CyUserVM :=
  match cs with
  | [] => Some st
  | c :: cs' => st' ← cyVmSetModuleFunc st c; run_loader_calls st' cs'
  end.

(** Modelled from the spec: a script import of [name].  Unregistered: the
    import fails (compile time).  Registered and unloaded: the VM creates a
    fresh module handle, invokes the loader with it, and seals the table
    when the callback returns.  Loaded: the import resolves from the cached
    module.  Either way the script then has access to the module. *)
Definition import_module (st : CyUserVM) (name : string)
    : option (CyUserVM * option CyModule) :=
  match modules st !! name with
  | None => Some (st, None)
  | Some (Registered loader) =>
      let h := next_handle st in
      let st1 :=
        log (EvLoaderInvoked name)
            (with_registry (<[name := Loading h ∅]> (modules st))
                           (Some name) (h + 1) st) in
      st2 ← run_loader_calls st1 (loader (self st) h);
      match modules st2 !! name with
      | Some (Loading _ table) =>
          Some (log (EvModuleAccess name)
                    (with_registry (<[name := Loaded table]> (modules st2))
                                   None (next_handle st2) st2),
                Some table)
      | _ => None
      end
  | Some (Loading _ _) => None
  | Some (Loaded table) => Some (log (EvModuleAccess name) st, Some table)
  end.

(** Modelled from the spec: the outcome of running compiled code (the
    interpreter is not in the header): a value, an uncaught script-level
    error, or a condition the VM cannot classify. *)
Inductive ExecResult : Type :=
| Returned (val : CyValue)
| Panicked (diagnostic : string)
| Failed (diagnostic : string).

(** Modelled from the spec: the external collaborators behind the handle
    (lexer, parser, compiler, interpreter), absent from the header and
    constrained only by the result codes and diagnostics they surface.  A
    stage that rejects its input returns the diagnostic on the left;
    compilation reads the global environment, execution may change it. *)
Record Pipeline : Type := mkPipeline {
  Tokens : Type;
  Ast : Type;
  Code : Type;
  tokenize : string → string + Tokens;
  parse : Tokens → string + Ast;
  imports : Ast → list string;
  unresolved_import : string → string;
  compile : gmap string CyModule → gmap string CyValue → Ast → string + Code;
  execute : gmap string CyModule → gmap string CyValue → Code
            → gmap string CyValue * ExecResult
}.

(** Modelled from the spec: imports are resolved in source order during
    compilation (part of the absent body of [cyVmEval]); the first
    unregistered name stops the compilation with its diagnostic. *)
Fixpoint resolve_imports (P : Pipeline) (st : CyUserVM) (names : list string)
    (acc : gmap string CyModule)
  : option (CyUserVM * (string + gmap string CyModule)) :=
  match names with
  | [] => Some (st, inr acc)
  | name :: names' =>
      '(st', r) ← import_module st name;
      match r with
      | None => Some (st', inl (unresolved_import P name))
      | Some table => resolve_imports P st' names' (<[name := table]> acc)
      end
  end.

Definition eval_result : Type := CyResultCode * CyUserVM * option CyValue.

(** Modelled from the spec: a non-success return of [cyVmEval]; the
    diagnostic is recorded on the VM, the out-value is left undefined. *)
Definition fail (rc : CyResultCode) (d : string) (st : CyUserVM) : eval_result :=
  (rc, with_report d st, None).

(** Modelled from the spec: [cyVmEval] (declared only) tokenizes, parses,
    compiles and executes the source in the persistent global environment,
    and returns the result code of the first stage that fails, or
    [CY_Success] with the value of the program.  Each eval overwrites the
    error report.  On a handle that is not live the call is undefined. *)
Definition cyVmEval (P : Pipeline) (st : CyUserVM) (src : string)
    : option eval_result :=
  if live st then
    match tokenize P src with
    | inl d => Some (fail CY_ErrorToken d st)
    | inr ts =>
        match parse P ts with
        | inl d => Some (fail CY_ErrorParse d st)
        | inr ast =>
            '(st1, r) ← resolve_imports P st (imports P ast) ∅;
            match r with
            | inl d => Some (fail CY_ErrorCompile d st1)
            | inr ms =>
                match compile P ms (globals st1) ast with
                | inl d => Some (fail CY_ErrorCompile d st1)
                | inr code =>
                    let st2 := log EvExecute st1 in
                    let '(g, r) := execute P ms (globals st2) code in
                    let st3 := with_globals g st2 in
                    match r with
                    | Returned v0 =>
                        let v := as_CyValue v0 in
                        Some (CY_Success, with_report "" (retain v st3), Some v)
                    | Panicked d => Some (fail CY_ErrorPanic d st3)
                    | Failed d => Some (fail CY_ErrorUnknown d st3)
                    end
                end
            end
        end
    end
  else None.

Definition align8 (z : Z) : Z := 8 * ((z + 7) / 8).

(** Modelled from the spec: [cyVmAlloc] (declared only) returns an aligned
    pointer into the region the VM owns, or null on exhaustion; the buffer
    is raw and belongs to the host until freed. *)
Definition cyVmAlloc (st : CyUserVM) (size : Z) : option (CyUserVM * Z) :=
  if live st then
    let p := align8 (brk st) in
    if decide (0 <= size ∧ p + size <= capacity st)
    then Some (with_buffers (<[p := size]> (buffers st)) (p + size) st, p)
    else Some (st, 0)
  else None.

(** Modelled from the spec: [cyVmFree] (declared only) takes back a buffer
    and requires the size passed to alloc; a mismatch is undefined. *)
Definition cyVmFree (st : CyUserVM) (ptr : Z) (len : Z) : option CyUserVM :=
  if live st then
    match buffers st !! ptr with
    | Some size =>
        if decide (size = len)
        then Some (with_buffers (delete ptr (buffers st)) (brk st) st)
        else None
    | None => None
    end
  else None.

(** The calls a host issues on one handle after [cyVmCreate]. *)
Inductive Call : Type :=
| CEval (src : string)
| CGetLastErrorReport
| CRelease (val : CyValue)
| CAddModuleLoader (name : string) (func : CyLoadModuleFunc)
| CAlloc (size : Z)
| CFree (ptr len : Z)
| CDestroy.

(** One call; [None] is undefined behaviour at the boundary. *)
Definition step (P : Pipeline) (st : CyUserVM) (c : Call) : option CyUserVM :=
  match c with
  | CEval src => (λ r : eval_result, r.1.2) <$> cyVmEval P st src
  | CGetLastErrorReport => _ ← cyVmGetLastErrorReport st; Some st
  | CRelease val => cyVmRelease st val
  | CAddModuleLoader name func => cyVmAddModuleLoader st name func
  | CAlloc size => fst <$> cyVmAlloc st size
  | CFree ptr len => cyVmFree st ptr len
  | CDestroy => cyVmDestroy st
  end.

Fixpoint run (P : Pipeline) (st : CyUserVM) (cs : list Call) : option CyUserVM :=
  match cs with
  | [] => Some st
  | c :: cs' => st' ← step P st c; run P st' cs'
  end.

(** Calls that can overwrite the error report, or end the lifetime of the
    handle. *)
Definition overwrites_report (c : Call) : bool :=
  match c with
  | CEval _ | CDestroy => true
  | _ => false
  end.

(** The static failure codes. *)
Definition is_static_error (rc : CyResultCode) : bool :=
  match rc with
  | CY_ErrorToken | CY_ErrorParse | CY_ErrorCompile => true
  | _ => false
  end.

Definition loader_invocations (name : string) (tr : list Event) : nat :=
  length (filter (λ e, e = EvLoaderInvoked name) tr).

Definition executions (tr : list Event) : nat :=
  length (filter (λ e, e = EvExecute) tr).

(** In a log kept newest first, every access to [name] has an invocation
    of the loader of [name] among the older events. *)
Definition accesses_follow_load (name : string) (tr : list Event) : Prop :=
  ∀ newer older, tr = newer ++ EvModuleAccess name :: older →
                 EvLoaderInvoked name ∈ older.

(** The registry agrees with the log: a name that is unregistered or
    registered and unloaded has never had its loader invoked, any other
    name exactly once. *)
Definition registry_inv (st : CyUserVM) : Prop :=
  ∀ name,
    accesses_follow_load name (trace st)
    ∧ if is_unloaded (modules st !! name)
      then EvLoaderInvoked name ∉ trace st
      else loader_invocations name (trace st) = 1%nat.

(** What the registrar leaves alone. *)
Definition outside_registry (st : CyUserVM)
  : bool * CyUserVM_ptr * gmap string CyValue * string * gmap Z nat
    * gmap Z Z * Z * Z :=
  (live st, self st, globals st, lastErrorReport st, heap st, buffers st,
   brk st, capacity st).

End VM.

(* ===================================================================== *)
(** ** A small host and pipeline to run the model on *)
(* ===================================================================== *)

Module Demo.
Import CInt Header Double Value VM.

(** The double 3.0 and the double 10.0. *)
Definition three : double := 0x4008000000000000.
Definition ten : double := 0x4024000000000000.

(** A native function of one parameter that returns its argument. *)
Definition first_arg : CyFunc :=
  λ _ args _, match args with a :: _ => a | [] => cyValueNone end.

(** A loader that installs [first_arg] under the name id with arity 1. *)
Definition math_loader : CyLoadModuleFunc :=
  λ vm m, [ mkSetModuleFunc vm m "id" 1 first_arg ].

(** A stand-in for the pipeline: it knows a handful of sources. *)
Definition pipeline : Pipeline :=
  {| Tokens := string; Ast := string; Code := string;
     tokenize := λ src,
       if decide (src = "@") then inl "TokenError: unexpected character"
       else inr src;
     parse := λ ts,
       if decide (ts = "1 +") then inl "ParseError: unexpected end at 1:4"
       else inr ts;
     imports := λ ast,
       if decide (ast = "import math") then ["math"] else [];
     unresolved_import := λ name,
       "CompileError: unresolved import " +:+ name;
     compile := λ _ g ast,
       if decide (ast = "x") then
         match g !! "x" with
         | Some _ => inr ast
         | None => inl "CompileError: undefined symbol x"
         end
       else inr ast;
     execute := λ _ g code,
       if decide (code = "panic('x')") then (g, Panicked "panic: x")
       else if decide (code = "x = 10")
            then (<["x" := cyValueNumber ten]> g, Returned cyValueNone)
            else (g, Returned cyValueNone) |}.

Definition fresh : CyUserVM := cyVmCreate 4096 65536.

(** An instance whose global environment defines [x]. *)
Definition defined_x : CyUserVM :=
  with_globals (<["x" := cyValueNumber ten]> ∅) fresh.

End Demo.

(* ===================================================================== *)
(** ** Using the [cstr] macro and the callback types *)
(* ===================================================================== *)

Module Macro.
Import CInt Header.

(** The bytes a [CStr] denotes: the [len] bytes from [charz] on. *)
Definition CStr_bytes (s : CStr) : list Z :=
  take (Z.to_nat (len s)) (buffer (charz s)).

(** Pointer arithmetic [s + i]: defined inside the object and one past its
    end (C11 6.5.6p8), undefined elsewhere. *)
Definition advance (s : c_string) (i : Z) : option c_string :=
  if decide (0 <= i <= Z.of_nat (length (buffer s)))
  then Some (CString (address s + i) (drop (Z.to_nat i) (buffer s)))
  else None.

(** An argument expression of type [char*]: evaluated in a state it yields
    a pointer and the state after its side effects; [None] is undefined
    behaviour. *)
Definition Expr (S : Type) : Type := S → option (c_string * S).

(** An argument without side effects. *)
Definition pure_expr {S : Type} (p : c_string) : Expr S := λ s, Some (p, s).

(** The argument [p++] for a [char*] variable [p]; the state is the
    variable. *)
Definition post_increment : Expr c_string :=
  λ p, p' ← advance p 1; Some (p, p').

(** [#define cstr(X) (CStr){ X, strlen(X) }] with an argument expression:
    the expansion evaluates [X] once for [charz] and once more inside
    [strlen(X)].  The two initialisers are indeterminately sequenced
    (C11 6.7.9p23): either one is evaluated first. *)
Definition cstr_macro_lr {S : Type} (X : Expr S) (s : S) : option (CStr * S) :=
  '(p1, s1) ← X s;
  '(p2, s2) ← X s1;
  n ← strlen p2;
  Some ({| charz := p1; len := n |}, s2).

Definition cstr_macro_rl {S : Type} (X : Expr S) (s : S) : option (CStr * S) :=
  '(p2, s1) ← X s;
  n ← strlen p2;
  '(p1, s2) ← X s1;
  Some ({| charz := p1; len := n |}, s2).

End Macro.

(* ===================================================================== *)
(** ** Facts about the declarations of the header *)
(* ===================================================================== *)

Section HeaderFacts.
Import CInt Header.

Lemma wrap_range (w z : Z) : 0 <= w → in_range w (wrap w z).
Proof.
  intros Hw. unfold in_range, wrap.
  apply Z.mod_pos_bound. by apply Z.pow_pos_nonneg.
Qed.

Lemma wrap_id (w z : Z) : in_range w z → wrap w z = z.
Proof. intros H. unfold wrap. by apply Z.mod_small. Qed.

Lemma wrap_testbit_high (w z i : Z) :
  0 <= w → w <= i → Z.testbit (wrap w z) i = false.
Proof. intros Hw Hi. unfold wrap. apply Z.mod_pow2_bits_high. lia. Qed.

Lemma in_range_bits (w v : Z) :
  0 <= w →
  in_range w v ↔ 0 <= v ∧ ∀ i, w <= i → Z.testbit v i = false.
Proof.
  intros Hw. split.
  - intros Hv. split; [apply Hv |]. intros i Hi.
    rewrite <- (wrap_id w v Hv). by apply wrap_testbit_high.
  - intros [H0 Hbits]. split; [done |].
    destruct (Z.lt_ge_cases v (2 ^ w)) as [|Hge]; [done |].
    assert (Hpos : 0 < v) by (pose proof (Z.pow_pos_nonneg 2 w); lia).
    pose proof (Z.bit_log2 v Hpos) as Hlog.
    rewrite Hbits in Hlog; [done |].
    apply Z.log2_le_pow2; lia.
Qed.

Lemma in_range_bits_eq (w a b : Z) :
  0 <= w → in_range w a → in_range w b →
  (∀ i, 0 <= i < w → Z.testbit a i = Z.testbit b i) → a = b.
Proof.
  intros Hw Ha Hb Hbits. apply Z.bits_inj'. intros i Hi.
  destruct (Z.lt_ge_cases i w) as [Hlt|Hge].
  - apply Hbits. lia.
  - apply (in_range_bits w a Hw) in Ha as [_ Ha].
    apply (in_range_bits w b Hw) in Hb as [_ Hb].
    by rewrite Ha, Hb.
Qed.

Lemma strlen_from_terminated (bytes : list Z) :
  NUL ∈ bytes →
  ∃ n : nat, strlen_from bytes = Some (Z.of_nat n)
    ∧ bytes !! n = Some NUL
    ∧ ∀ i b, (i < n)%nat → bytes !! i = Some b → b ≠ NUL.
Proof.
  induction bytes as [|b rest IH]; intros Hin.
  - by apply elem_of_nil in Hin.
  - cbn [strlen_from]. destruct (decide (b = NUL)) as [->|Hb].
    + exists 0%nat. split; [done |]. split; [done |]. intros i c Hi. lia.
    + apply elem_of_cons in Hin as [Heq|Hin]; [congruence |].
      destruct (IH Hin) as (n & Hlen & Hnul & Hbefore).
      exists (S n). rewrite Hlen. cbn. split; [f_equal; lia |].
      split; [done |].
      intros [|i] c Hi Hc; cbn in Hc; [congruence |].
      apply (Hbefore i); [lia | done].
Qed.

End HeaderFacts.

Section HeaderClaims.
Import CInt Header.

(** C2: the result-code type is a closed enumeration of exactly six
    members; the C enumerator rule gives them, in declaration order, the
    values CY_Success = 0, CY_ErrorToken = 1, CY_ErrorParse = 2,
    CY_ErrorCompile = 3, CY_ErrorPanic = 4, CY_ErrorUnknown = 5; the
    integers 0..5 and no others denote a result code, and a code is the
    success code exactly when its value equals zero. *)
Theorem CyResultCode_closed_enumeration :
  CyResultCode_values =
    [ (CY_Success, 0); (CY_ErrorToken, 1); (CY_ErrorParse, 2);
      (CY_ErrorCompile, 3); (CY_ErrorPanic, 4); (CY_ErrorUnknown, 5) ]
  ∧ (∀ c : CyResultCode, c ∈ CyResultCode_values.*1)
  ∧ NoDup CyResultCode_values.*1
  ∧ length CyResultCode_values = 6%nat
  ∧ (∀ (c : CyResultCode) (z : Z),
       CyResultCode_of_Z z = Some c ↔ CyResultCode_to_Z c = Some z)
  ∧ (∀ z : Z, is_Some (CyResultCode_of_Z z) ↔ 0 <= z <= 5)
  ∧ (∀ c : CyResultCode,
       CyResultCode_to_Z c = Some 0 ↔ c = CY_Success)
  ∧ (∀ c : CyResultCode, is_success c = true ↔ c = CY_Success).
Proof.
  split; [reflexivity |].
  split; [intros []; compute_done |].
  split; [compute_done |].
  split; [reflexivity |].
  assert (Hof : ∀ z, CyResultCode_of_Z z =
    if decide (z = 0) then Some CY_Success
    else if decide (z = 1) then Some CY_ErrorToken
    else if decide (z = 2) then Some CY_ErrorParse
    else if decide (z = 3) then Some CY_ErrorCompile
    else if decide (z = 4) then Some CY_ErrorPanic
    else if decide (z = 5) then Some CY_ErrorUnknown
    else None).
  { intros z. unfold CyResultCode_of_Z.
    change CyResultCode_values with
      [ (CY_Success, 0); (CY_ErrorToken, 1); (CY_ErrorParse, 2);
        (CY_ErrorCompile, 3); (CY_ErrorPanic, 4); (CY_ErrorUnknown, 5) ].
    cbn [list_find fst snd]. repeat case_decide; subst; try lia; reflexivity. }
  split.
  { intros c z. rewrite Hof.
    destruct c; vm_compute CyResultCode_to_Z;
      repeat case_decide; subst; split; intros Heq; try done;
      try (injection Heq as Heq; lia). }
  split.
  { intros z. rewrite Hof. repeat case_decide; subst; split;
      intros Hz; try lia; try (by eexists); by destruct Hz. }
  split.
  { intros []; vm_compute; split; intros Heq; done. }
  intros c. unfold is_success. rewrite bool_decide_eq_true.
  destruct c; vm_compute; split; intros Heq; done.
Qed.

(** C8: [CY_NullId] is the 32-bit unsigned constant 0xFFFFFFFF
    (UINT32_MAX): it lies in the range of [uint32_t], each of its 32 bits
    is one, and it is the largest value of the type. *)
Theorem CY_NullId_all_ones :
  CY_NullId = 0xFFFFFFFF
  ∧ CY_NullId = UINT32_MAX
  ∧ in_range 32 CY_NullId
  ∧ (∀ i, 0 <= i < 32 → Z.testbit CY_NullId i = true)
  ∧ (∀ i, 32 <= i → Z.testbit CY_NullId i = false)
  ∧ (∀ z, uint32_t z <= CY_NullId).
Proof.
  assert (Hval : CY_NullId = 2 ^ 32 - 1) by reflexivity.
  split; [reflexivity |]. split; [reflexivity |].
  split; [rewrite Hval; unfold in_range; lia |].
  split.
  { intros i Hi. rewrite Hval.
    replace (2 ^ 32 - 1) with (Z.ones 32) by reflexivity.
    apply Z.ones_spec_low. lia. }
  split.
  { intros i Hi. rewrite Hval.
    replace (2 ^ 32 - 1) with (Z.ones 32) by reflexivity.
    apply Z.ones_spec_high. lia. }
  intros z. rewrite Hval.
  pose proof (wrap_range 32 z ltac:(lia)) as Hr.
  unfold in_range in Hr. unfold uint32_t. lia.
Qed.

(** C9: a native function receives its argument count as a [uint8_t], so
    every invocation observes a count of at most 255, and a function
    registered with a [uint32_t] arity greater than 255 never receives a
    count equal to that arity. *)
Theorem CyFunc_nargs_at_most_255 (f : CyFunc) (vm : CyUserVM_ptr)
    (args : list CyValue) (n numParams : Z) :
  (∃ k, 0 <= k <= 255
        ∧ call_CyFunc f vm args n = as_CyValue (f vm (as_CyValue <$> args) k))
  ∧ 0 <= CyFunc_nargs n <= 255
  ∧ in_range 32 (numParams_arg numParams)
  ∧ (255 < numParams_arg numParams →
     CyFunc_nargs n ≠ numParams_arg numParams).
Proof.
  assert (Hn : 0 <= CyFunc_nargs n <= 255).
  { pose proof (wrap_range 8 n ltac:(lia)) as Hr.
    unfold in_range in Hr. unfold CyFunc_nargs, uint8_t. lia. }
  split; [exists (CyFunc_nargs n); by split |].
  split; [done |].
  split; [apply wrap_range; lia |].
  intros Hbig. lia.
Qed.

Lemma CyFunc_nargs_at_most_255_witness :
  CyFunc_nargs 300 = 44
  ∧ numParams_arg 300 = 300
  ∧ CyFunc_nargs 300 ≠ numParams_arg 300.
Proof.
  split; [reflexivity |]. split; [reflexivity |].
  destruct (CyFunc_nargs_at_most_255 (λ _ _ k, k) 4096 [] 300 300)
    as (_ & _ & _ & Hne).
  apply Hne. reflexivity.
Defined.

(** C10: for a NUL-terminated C string [X], [cstr(X)] is defined and yields
    a [CStr] whose [charz] is [X] and whose [len] is [strlen(X)]; [len]
    counts no NUL byte, and the byte at index [len] is the terminator. *)
Theorem cstr_length_convention (X : c_string) :
  NUL ∈ buffer X →
  ∃ s : CStr,
    cstr X = Some s
    ∧ charz s = X
    ∧ strlen X = Some (len s)
    ∧ 0 <= len s
    ∧ char_at (charz s) (len s) = Some NUL
    ∧ (∀ i, 0 <= i < len s → ∃ b, char_at (charz s) i = Some b ∧ b ≠ NUL).
Proof.
  intros Hnul.
  destruct (strlen_from_terminated (buffer X) Hnul)
    as (n & Hlen & Hat & Hbefore).
  exists {| charz := X; len := Z.of_nat n |}.
  unfold cstr, strlen. rewrite Hlen. cbn.
  split; [done |]. split; [done |]. split; [done |]. split; [lia |].
  split.
  - unfold char_at. cbn. case_decide; [| lia]. by rewrite Nat2Z.id.
  - intros i Hi. unfold char_at. cbn. case_decide; [| lia].
    assert (Hlt : (Z.to_nat i < n)%nat) by lia.
    destruct (buffer X !! Z.to_nat i) as [b|] eqn:Hb.
    + exists b. split; [done |]. by apply (Hbefore (Z.to_nat i)).
    + apply lookup_ge_None in Hb. apply lookup_lt_Some in Hat. lia.
Qed.

Lemma cstr_length_convention_witness :
  ∃ s : CStr,
    cstr (CString 4096 [104; 105; 0; 33]) = Some s
    ∧ charz s = CString 4096 [104; 105; 0; 33]
    ∧ strlen (CString 4096 [104; 105; 0; 33]) = Some (len s)
    ∧ 0 <= len s
    ∧ char_at (charz s) (len s) = Some NUL
    ∧ (∀ i, 0 <= i < len s → ∃ b, char_at (charz s) i = Some b ∧ b ≠ NUL).
Proof.
  apply (cstr_length_convention (CString 4096 [104; 105; 0; 33])).
  cbn. unfold NUL. set_solver.
Defined.

End HeaderClaims.

(* ===================================================================== *)
(** ** Facts about the value encoding *)
(* ===================================================================== *)

Section ValueFacts.
Import CInt Header Double Value.

Lemma boxed_exponent (v : Z) :
  Z.land v TaggedValueMask = TaggedValueMask → exponent_bits v = 0x7FF.
Proof.
  intros Hbox. unfold exponent_bits.
  change 0x7FF with (Z.shiftr TaggedValueMask 52).
  by rewrite <- Z.shiftr_land, Hbox.
Qed.

Lemma boxed_quiet_bit (v : Z) :
  Z.land v TaggedValueMask = TaggedValueMask → Z.testbit v 51 = true.
Proof.
  intros Hbox.
  assert (Hbit : Z.testbit (Z.land v TaggedValueMask) 51 = true)
    by (rewrite Hbox; reflexivity).
  rewrite Z.land_spec in Hbit. by apply andb_true_iff in Hbit as [? _].
Qed.

Lemma boxed_fraction (v : Z) :
  Z.land v TaggedValueMask = TaggedValueMask → fraction_bits v ≠ 0.
Proof.
  intros Hbox Hfrac. apply boxed_quiet_bit in Hbox.
  assert (Hbit : Z.testbit (fraction_bits v) 51 = true).
  { unfold fraction_bits. rewrite Z.land_spec, Hbox. reflexivity. }
  rewrite Hfrac in Hbit. by rewrite Z.bits_0 in Hbit.
Qed.

(** A double that is not a NaN is never mistaken for a boxed value. *)
Lemma not_nan_isNumber (d : double) : is_nan d = false → isNumber d = true.
Proof.
  unfold is_nan, isNumber. intros Hnan.
  apply negb_true_iff, Z.eqb_neq. intros Hbox.
  pose proof (boxed_exponent d Hbox) as Hexp.
  pose proof (boxed_fraction d Hbox) as Hfrac.
  apply Z.eqb_eq in Hexp. apply Z.eqb_neq in Hfrac.
  by rewrite Hexp, Hfrac in Hnan.
Qed.

Lemma finite_not_nan (d : double) : is_finite d = true → is_nan d = false.
Proof.
  unfold is_finite, is_nan. intros H%negb_true_iff. by rewrite H.
Qed.

Lemma infinite_not_nan (d : double) : is_infinite d = true → is_nan d = false.
Proof.
  unfold is_infinite, is_nan. intros [-> ->]%andb_true_iff. done.
Qed.

(** The two infinities are the only doubles with an all-ones exponent and
    an empty fraction. *)
Lemma infinite_iff (d : double) :
  is_double d →
  is_infinite d = true ↔ d = pos_infinity ∨ d = neg_infinity.
Proof.
  intros Hd. split.
  - unfold is_infinite, exponent_bits, fraction_bits.
    intros [Hexp%Z.eqb_eq Hfrac%Z.eqb_eq]%andb_true_iff.
    unfold is_double in Hd. unfold pos_infinity, neg_infinity.
    change (2 ^ 52 - 1) with (Z.ones 52) in Hfrac.
    change 0x7FF with (Z.ones 11) in Hexp.
    rewrite Z.land_ones in Hfrac by lia.
    rewrite Z.land_ones, Z.shiftr_div_pow2 in Hexp by lia.
    pose proof (Z.div_mod d (2 ^ 52) ltac:(lia)) as Hdm.
    assert (Hq : 0 <= d / 2 ^ 52 < 2 ^ 12).
    { split; [apply Z.div_pos; lia |].
      apply Z.div_lt_upper_bound; lia. }
    pose proof (Z.div_mod (d / 2 ^ 52) (2 ^ 11) ltac:(lia)) as Hdm'.
    assert (Hq' : 0 <= d / 2 ^ 52 / 2 ^ 11 < 2).
    { split; [apply Z.div_pos; lia |].
      apply Z.div_lt_upper_bound; lia. }
    change (Z.ones 11) with 2047 in Hexp.
    unfold double in d. lia.
  - by intros [-> | ->].
Qed.

End ValueFacts.

Section ValueClaims.
Import CInt Header Double Value.

(** C1: for every finite double [d], [cyValueAsDouble (cyValueNumber d)]
    is defined and returns [d] bit for bit; the same holds for positive
    infinity, negative infinity and the canonical quiet NaN. *)
Theorem cyValueNumber_round_trip (d : double) :
  is_double d →
  is_finite d = true ∨ d = pos_infinity ∨ d = neg_infinity
    ∨ d = canonical_qnan →
  cyValueAsDouble (cyValueNumber d) = Some d.
Proof.
  intros Hd Hclass.
  unfold cyValueNumber, as_CyValue. rewrite wrap_id by exact Hd.
  unfold cyValueAsDouble.
  assert (Hnum : isNumber d = true); [| by rewrite Hnum].
  destruct Hclass as [Hfin | [-> | [-> | ->]]]; [| reflexivity ..].
  by apply not_nan_isNumber, finite_not_nan.
Qed.

Lemma cyValueNumber_round_trip_witness :
  cyValueAsDouble (cyValueNumber Demo.three) = Some Demo.three.
Proof.
  apply (cyValueNumber_round_trip Demo.three).
  - unfold is_double, Demo.three. lia.
  - left. reflexivity.
Defined.

(** C6: the three primitive constructors produce 64-bit values no two of
    which are equal. *)
Theorem primitive_values_pairwise_distinct :
  cyValueNone ≠ cyValueTrue
  ∧ cyValueTrue ≠ cyValueFalse
  ∧ cyValueNone ≠ cyValueFalse
  ∧ is_CyValue cyValueNone ∧ is_CyValue cyValueTrue
  ∧ is_CyValue cyValueFalse.
Proof.
  repeat split; try (apply wrap_range; unfold CyValue_bits; lia);
    vm_compute; congruence.
Qed.

End ValueClaims.

(* ===================================================================== *)
(** ** Facts about the event log *)
(* ===================================================================== *)

Section LogFacts.
Import VM.

Lemma loader_invocations_cons (name : string) (e : Event) (tr : list Event) :
  loader_invocations name (e :: tr) =
    if decide (e = EvLoaderInvoked name)
    then S (loader_invocations name tr)
    else loader_invocations name tr.
Proof.
  unfold loader_invocations. rewrite filter_cons. by case_decide.
Qed.

Lemma loader_never_invoked (name : string) (tr : list Event) :
  EvLoaderInvoked name ∉ tr ↔ loader_invocations name tr = 0%nat.
Proof.
  induction tr as [|e tr IH].
  - split; [done | intros _; apply not_elem_of_nil].
  - rewrite loader_invocations_cons, not_elem_of_cons.
    case_decide as He; split.
    + intros [Hne _]. by subst.
    + done.
    + intros [_ Hnot]. by apply IH.
    + intros Hzero. split; [congruence | by apply IH].
Qed.

Lemma loader_invoked_once_elem (name : string) (tr : list Event) :
  loader_invocations name tr = 1%nat → EvLoaderInvoked name ∈ tr.
Proof.
  intros Hone. destruct (decide (EvLoaderInvoked name ∈ tr)) as [|Hnot];
    [done |].
  apply loader_never_invoked in Hnot. lia.
Qed.

Lemma executions_cons (e : Event) (tr : list Event) :
  executions (e :: tr) =
    if decide (e = EvExecute) then S (executions tr) else executions tr.
Proof. unfold executions. rewrite filter_cons. by case_decide. Qed.

Lemma accesses_follow_load_nil (name : string) : accesses_follow_load name [].
Proof. intros [|? ?] older Heq; discriminate. Qed.

Lemma accesses_follow_load_other (name : string) (e : Event) (tr : list Event) :
  e ≠ EvModuleAccess name →
  accesses_follow_load name tr → accesses_follow_load name (e :: tr).
Proof.
  intros Hne Htr [|e' newer] older Heq; simplify_eq/=.
  by apply (Htr newer).
Qed.

Lemma accesses_follow_load_access (name : string) (tr : list Event) :
  EvLoaderInvoked name ∈ tr →
  accesses_follow_load name tr →
  accesses_follow_load name (EvModuleAccess name :: tr).
Proof.
  intros Hin Htr [|e' newer] older Heq; simplify_eq/=; [done |].
  by apply (Htr newer).
Qed.

End LogFacts.

(* ===================================================================== *)
(** ** Facts about the module registrar *)
(* ===================================================================== *)

Section RegistrarFacts.
Import Header VM.

Lemma cyVmSetModuleFunc_loading (st st' : CyUserVM) (c : SetModuleFuncCall) :
  cyVmSetModuleFunc st c = Some st' →
  ∃ name h table table',
    current st = Some name
    ∧ modules st !! name = Some (Loading h table)
    ∧ modules st' = <[name := Loading h table']> (modules st)
    ∧ current st' = current st
    ∧ next_handle st' = next_handle st
    ∧ outside_registry st' = outside_registry st
    ∧ trace st' = trace st.
Proof.
  unfold cyVmSetModuleFunc. intros Hset.
  destruct (live st && bool_decide (call_vm c = self st)); [| done].
  destruct (current st) as [name|] eqn:Hcur; [| done]. cbn in Hset.
  destruct (modules st !! name) as [[loader|h table|table]|] eqn:Hmod;
    try done.
  case_match; [| done]. simplify_eq.
  exists name, h, table. eexists. repeat split; done.
Qed.

Lemma run_loader_calls_loading (cs : list SetModuleFuncCall) :
  ∀ (st st2 : CyUserVM) (name : string) (h : CyModule_ptr) (table : CyModule),
    current st = Some name →
    modules st !! name = Some (Loading h table) →
    run_loader_calls st cs = Some st2 →
    ∃ table2,
      modules st2 = <[name := Loading h table2]> (modules st)
      ∧ current st2 = Some name
      ∧ next_handle st2 = next_handle st
      ∧ outside_registry st2 = outside_registry st
      ∧ trace st2 = trace st.
Proof.
  induction cs as [|c cs IH]; intros st st2 name h table Hcur Hmod Hrun.
  - cbn in Hrun. simplify_eq. exists table. by rewrite insert_id.
  - cbn in Hrun.
    destruct (cyVmSetModuleFunc st c) as [st1|] eqn:Hset; [| done].
    cbn in Hrun.
    destruct (cyVmSetModuleFunc_loading _ _ _ Hset)
      as (name' & h' & table0 & table1 & Hcur' & Hmod' & Hms & Hc & Hn & Ho & Ht).
    assert (name' = name) by congruence. subst name'.
    assert (h' = h) by congruence. subst h'.
    destruct (IH st1 st2 name h table1) as (table2 & Hms2 & Hc2 & Hn2 & Ho2 & Ht2).
    + congruence.
    + rewrite Hms. apply lookup_insert_eq.
    + done.
    + exists table2. rewrite Hms2, Hms, insert_insert_eq.
      repeat split; congruence.
Qed.

(** What an import does to the instance, case by case. *)
Lemma import_module_cases (st st' : CyUserVM) (name : string)
    (r : option CyModule) :
  import_module st name = Some (st', r) →
  outside_registry st' = outside_registry st
  ∧ ((modules st !! name = None ∧ st' = st ∧ r = None)
     ∨ (∃ table, modules st !! name = Some (Loaded table)
                 ∧ modules st' = modules st
                 ∧ trace st' = EvModuleAccess name :: trace st
                 ∧ r = Some table)
     ∨ (∃ loader table, modules st !! name = Some (Registered loader)
                 ∧ modules st' = <[name := Loaded table]> (modules st)
                 ∧ trace st' = EvModuleAccess name :: EvLoaderInvoked name
                                 :: trace st
                 ∧ r = Some table)).
Proof.
  unfold import_module. intros Himp.
  destruct (modules st !! name) as [[loader|h table|table]|] eqn:Hmod.
  - match type of Himp with
    | context [run_loader_calls ?s ?cs] =>
        destruct (run_loader_calls s cs) as [st2|] eqn:Hrun; [| done];
        destruct (run_loader_calls_loading cs s st2 name (next_handle st) ∅)
          as (table2 & Hms2 & Hc2 & Hn2 & Ho2 & Ht2);
        [done | cbn; apply lookup_insert_eq | done |]
    end.
    cbn in Himp, Hms2, Ht2. rewrite Hms2, lookup_insert_eq in Himp.
    simplify_eq. split; [unfold outside_registry; cbn; congruence |].
    right; right. exists loader, table2.
    split; [done |]. cbn.
    split; [by rewrite !insert_insert_eq |].
    split; [by rewrite Ht2 |]. done.
  - done.
  - simplify_eq. split; [done |]. right; left. by exists table.
  - simplify_eq. split; [done |]. by left.
Qed.

Lemma import_module_inv (st st' : CyUserVM) (name : string)
    (r : option CyModule) :
  registry_inv st → import_module st name = Some (st', r) → registry_inv st'.
Proof.
  intros Hinv Himp n.
  destruct (import_module_cases _ _ _ _ Himp)
    as [_ [(_ & -> & _) | [(table & Hmod & Hms & Htr & _)
                          | (loader & table & Hmod & Hms & Htr & _)]]];
    [apply Hinv | |]; destruct (Hinv n) as [Hafl Hcount];
    rewrite Hms, Htr.
  - (* resolved from the cached module *)
    destruct (decide (n = name)) as [->|Hne].
    + rewrite Hmod in Hcount |- *. cbn [is_unloaded] in Hcount |- *. split.
      * apply accesses_follow_load_access; [| done].
        by apply loader_invoked_once_elem.
      * by rewrite loader_invocations_cons, decide_False.
    + split.
      * apply accesses_follow_load_other; [congruence | done].
      * rewrite loader_invocations_cons, decide_False by done.
        destruct (is_unloaded (modules st !! n)); [| done].
        rewrite not_elem_of_cons. split; [done | done].
  - (* first import: the loader runs, then the script gets the module *)
    destruct (decide (n = name)) as [->|Hne].
    + rewrite Hmod in Hcount. cbn [is_unloaded] in Hcount.
      rewrite lookup_insert_eq. cbn [is_unloaded]. split.
      * apply accesses_follow_load_access; [apply elem_of_cons; by left |].
        apply accesses_follow_load_other; [done | done].
      * rewrite !loader_invocations_cons, decide_False, decide_True by done.
        f_equal. by apply loader_never_invoked.
    + rewrite lookup_insert_ne by done. split.
      * do 2 (apply accesses_follow_load_other; [congruence |]). done.
      * rewrite !loader_invocations_cons, !decide_False by congruence.
        destruct (is_unloaded (modules st !! n)); [| done].
        rewrite !not_elem_of_cons. repeat split; [done | congruence | done].
Qed.

Lemma import_module_executions (st st' : CyUserVM) (name : string)
    (r : option CyModule) :
  import_module st name = Some (st', r) →
  executions (trace st') = executions (trace st).
Proof.
  intros Himp.
  destruct (import_module_cases _ _ _ _ Himp)
    as [_ [(_ & -> & _) | [(table & _ & _ & Htr & _)
                          | (loader & table & _ & _ & Htr & _)]]];
    [done | |]; rewrite Htr, !executions_cons; by rewrite !decide_False.
Qed.

Lemma resolve_imports_preserves (P : Pipeline) (names : list string) :
  ∀ (st st' : CyUserVM) acc r,
    resolve_imports P st names acc = Some (st', r) →
    outside_registry st' = outside_registry st
    ∧ executions (trace st') = executions (trace st)
    ∧ (registry_inv st → registry_inv st')
    ∧ (∀ d, r = inl d → ∃ name, d = unresolved_import P name).
Proof.
  induction names as [|name names IH]; intros st st' acc r Hres.
  - cbn in Hres. simplify_eq.
    split; [done |]. split; [done |]. split; [done |].
    intros d Hd. discriminate.
  - cbn in Hres.
    destruct (import_module st name) as [[st1 [table|]]|] eqn:Himp;
      cbn in Hres; [| | done].
    + destruct (IH _ _ _ _ Hres) as (Ho & He & Hi & Hd).
      destruct (import_module_cases _ _ _ _ Himp) as [Ho1 _].
      split; [congruence |].
      split; [rewrite He; by eapply import_module_executions |].
      split; [| done].
      intros Hinv. apply Hi. by eapply import_module_inv.
    + simplify_eq.
      destruct (import_module_cases _ _ _ _ Himp) as [Ho1 _].
      split; [done |].
      split; [by eapply import_module_executions |].
      split; [intros Hinv; by eapply import_module_inv |].
      intros d Hd. simplify_eq. by exists name.
Qed.

End RegistrarFacts.

(* ===================================================================== *)
(** ** Facts about the evaluator and the other calls *)
(* ===================================================================== *)

Section EvalFacts.
Import CInt Header Value VM.

Lemma registry_inv_same (st st' : CyUserVM) :
  modules st' = modules st → trace st' = trace st →
  registry_inv st → registry_inv st'.
Proof. unfold registry_inv. intros -> ->. done. Qed.

Lemma registry_inv_execute (st : CyUserVM) :
  registry_inv st → registry_inv (log EvExecute st).
Proof.
  intros Hinv name. destruct (Hinv name) as [Hafl Hcount].
  change (trace (log EvExecute st)) with (EvExecute :: trace st).
  change (modules (log EvExecute st)) with (modules st). split.
  - by apply accesses_follow_load_other.
  - rewrite loader_invocations_cons, decide_False by done.
    destruct (is_unloaded (modules st !! name)); [| done].
    rewrite not_elem_of_cons. by split.
Qed.

Lemma retain_frame (v : CyValue) (st : CyUserVM) :
  modules (retain v st) = modules st
  ∧ trace (retain v st) = trace st
  ∧ globals (retain v st) = globals st
  ∧ lastErrorReport (retain v st) = lastErrorReport st
  ∧ live (retain v st) = live st.
Proof. unfold retain. by destruct (classify v). Qed.

(** Everything the claims need to know about one eval. *)
Lemma cyVmEval_cases (P : Pipeline) (st st' : CyUserVM) (src : string)
    (rc : CyResultCode) (out : option CyValue) :
  cyVmEval P st src = Some (rc, st', out) →
  live st = true
  ∧ live st' = true
  ∧ (registry_inv st → registry_inv st')
  ∧ (is_static_error rc = true →
     globals st' = globals st
     ∧ executions (trace st') = executions (trace st))
  ∧ (rc ≠ CY_Success → out = None)
  ∧ (rc = CY_Success → ∃ v, out = Some v ∧ is_CyValue v).
Proof.
  unfold cyVmEval, fail. intros Heval.
  destruct (live st) eqn:Hlive; [| done].
  destruct (tokenize P src) as [d|ts] eqn:Htok.
  { simplify_eq. cbn.
    split; [done |]. split; [done |]. split; [done |]. split; [done |].
    split; done. }
  destruct (parse P ts) as [d|ast] eqn:Hparse.
  { simplify_eq. cbn.
    split; [done |]. split; [done |]. split; [done |]. split; [done |].
    split; done. }
  destruct (resolve_imports P st (imports P ast) ∅) as [[st1 r]|] eqn:Hres;
    [| done].
  cbn in Heval.
  destruct (resolve_imports_preserves _ _ _ _ _ _ Hres)
    as (Hout & Hexec & Hinv & Hdiag).
  assert (Hlive1 : live st1 = true)
    by (unfold outside_registry in Hout; congruence).
  assert (Hglob1 : globals st1 = globals st)
    by (unfold outside_registry in Hout; congruence).
  destruct r as [d|ms].
  { simplify_eq. cbn.
    split; [done |]. split; [done |]. split; [done |]. split; [done |].
    split; done. }
  destruct (compile P ms (globals st1) ast) as [d|code] eqn:Hcomp.
  { simplify_eq. cbn.
    split; [done |]. split; [done |]. split; [done |]. split; [done |].
    split; done. }
  cbn in Heval.
  destruct (execute P ms (globals st1) code) as [g [v0|d|d]] eqn:Hexe;
    simplify_eq.
  - destruct (retain_frame (as_CyValue v0)
                (with_globals g (log EvExecute st1)))
      as (Hm & Ht & _ & _ & Hl).
    split; [done |]. split; [cbn; by rewrite Hl |].
    split.
    { intros Hi. eapply registry_inv_same;
        [| | apply registry_inv_execute, Hinv, Hi]; cbn; by rewrite ?Hm, ?Ht. }
    split; [done |]. split; [done |].
    intros _. eexists. split; [done |].
    apply wrap_range. unfold CyValue_bits. lia.
  - split; [done |]. split; [done |].
    split.
    { intros Hi. eapply registry_inv_same;
        [| | apply registry_inv_execute, Hinv, Hi]; done. }
    split; [done |]. split; done.
  - split; [done |]. split; [done |].
    split.
    { intros Hi. eapply registry_inv_same;
        [| | apply registry_inv_execute, Hinv, Hi]; done. }
    split; [done |]. split; done.
Qed.

Lemma executions_history (st : CyUserVM) :
  executions (history st) = executions (trace st).
Proof.
  unfold executions, history. by rewrite filter_reverse, length_reverse.
Qed.

Lemma loader_invocations_history (name : string) (st : CyUserVM) :
  loader_invocations name (history st) = loader_invocations name (trace st).
Proof.
  unfold loader_invocations, history.
  by rewrite filter_reverse, length_reverse.
Qed.

(** A call other than eval and destroy leaves the report, the globals and
    the log alone, and the handle live. *)
Lemma step_quiet (P : Pipeline) (st st' : CyUserVM) (c : Call) :
  overwrites_report c = false →
  step P st c = Some st' →
  lastErrorReport st' = lastErrorReport st
  ∧ globals st' = globals st
  ∧ trace st' = trace st
  ∧ live st = true ∧ live st' = true.
Proof.
  destruct c as [src| |val|name func|size|ptr n|]; try done; intros _;
    cbn [step]; unfold cyVmGetLastErrorReport, cyVmRelease,
      cyVmAddModuleLoader, cyVmAlloc, cyVmFree;
    destruct (live st) eqn:Hlive; try done; cbn; intros Hstep.
  - by simplify_eq.
  - repeat case_match; simplify_eq; done.
  - repeat case_match; simplify_eq; done.
  - repeat case_match; cbn in Hstep; simplify_eq; done.
  - repeat case_match; simplify_eq; done.
Qed.

Lemma run_quiet (P : Pipeline) (cs : list Call) :
  ∀ st st' : CyUserVM,
    Forall (λ c, overwrites_report c = false) cs →
    live st = true →
    run P st cs = Some st' →
    lastErrorReport st' = lastErrorReport st
    ∧ globals st' = globals st
    ∧ trace st' = trace st
    ∧ live st' = true.
Proof.
  induction cs as [|c cs IH]; intros st st' Hcs Hlive Hrun.
  - cbn in Hrun. by simplify_eq.
  - cbn in Hrun. apply Forall_cons in Hcs as [Hc Hcs].
    destruct (step P st c) as [st1|] eqn:Hstep; [| done]. cbn in Hrun.
    destruct (step_quiet _ _ _ _ Hc Hstep) as (Hr & Hg & Ht & _ & Hl).
    destruct (IH _ _ Hcs Hl Hrun) as (Hr' & Hg' & Ht' & Hl').
    repeat split; congruence.
Qed.

Lemma step_inv (P : Pipeline) (st st' : CyUserVM) (c : Call) :
  registry_inv st → step P st c = Some st' → registry_inv st'.
Proof.
  intros Hinv.
  destruct c as [src| |val|name func|size|ptr n|]; cbn [step].
  - destruct (cyVmEval P st src) as [[[rc st1] out]|] eqn:Heval; [| done].
    cbn. intros ?; simplify_eq.
    by apply (cyVmEval_cases _ _ _ _ _ _ Heval).
  - unfold cyVmGetLastErrorReport. case_match; [| done]. cbn.
    intros ?; by simplify_eq.
  - unfold cyVmRelease. intros Hstep.
    eapply registry_inv_same; [| | exact Hinv];
      repeat case_match; simplify_eq; done.
  - unfold cyVmAddModuleLoader. case_match; [| done].
    destruct (is_unloaded (modules st !! name)) eqn:Hun;
      intros ?; simplify_eq; [| done].
    intros n. destruct (Hinv n) as [Hafl Hcount]. split; [done |]. cbn.
    destruct (decide (n = name)) as [->|Hne].
    + rewrite lookup_insert_eq. cbn. by rewrite Hun in Hcount.
    + by rewrite lookup_insert_ne.
  - unfold cyVmAlloc. intros Hstep.
    eapply registry_inv_same; [| | exact Hinv];
      repeat case_match; cbn in Hstep; simplify_eq; done.
  - unfold cyVmFree. intros Hstep.
    eapply registry_inv_same; [| | exact Hinv];
      repeat case_match; simplify_eq; done.
  - unfold cyVmDestroy. case_match; [| done]. intros ?; by simplify_eq.
Qed.

Lemma run_inv (P : Pipeline) (cs : list Call) :
  ∀ st st' : CyUserVM,
    registry_inv st → run P st cs = Some st' → registry_inv st'.
Proof.
  induction cs as [|c cs IH]; intros st st' Hinv Hrun; cbn in Hrun.
  - by simplify_eq.
  - destruct (step P st c) as [st1|] eqn:Hstep; [| done]. cbn in Hrun.
    eapply IH; [| done]. by eapply step_inv.
Qed.

Lemma cyVmCreate_inv (addr : CyUserVM_ptr) (cap : Z) :
  registry_inv (cyVmCreate addr cap).
Proof.
  intros name. cbn. split; [apply accesses_follow_load_nil |].
  rewrite lookup_empty. cbn. apply not_elem_of_nil.
Qed.

End EvalFacts.

(* ===================================================================== *)
(** ** The claims about the VM *)
(* ===================================================================== *)

Section VMClaims.
Import CInt Header Double Value VM.

(** C7: [CyValue] is a fixed-width 64-bit datum: conversion to the type
    always lands in [0, 2^64) and leaves a value already there unchanged
    (passing it by value copies it as it is), a value of the type has no
    bit at position 64 or above and is determined by its 64 bits, and what
    a native function returns through the boundary is such a value. *)
Theorem CyValue_is_64_bit :
  CyValue_bits = 64
  ∧ (∀ z : Z, is_CyValue (as_CyValue z))
  ∧ (∀ v : CyValue, is_CyValue v ↔ 0 <= v < 2 ^ 64)
  ∧ (∀ v : CyValue, is_CyValue v → as_CyValue v = v)
  ∧ (∀ v : CyValue,
       is_CyValue v ↔ 0 <= v ∧ ∀ i, 64 <= i → Z.testbit v i = false)
  ∧ (∀ a b : CyValue,
       is_CyValue a → is_CyValue b →
       (∀ i, 0 <= i < 64 → Z.testbit a i = Z.testbit b i) → a = b)
  ∧ (∀ (f : CyFunc) vm args n, is_CyValue (call_CyFunc f vm args n)).
Proof.
  split; [reflexivity |].
  split; [intros z; apply wrap_range; unfold CyValue_bits; lia |].
  split; [done |].
  split; [intros v Hv; by apply wrap_id |].
  split; [intros v; apply in_range_bits; unfold CyValue_bits; lia |].
  split; [intros a b; apply in_range_bits_eq; unfold CyValue_bits; lia |].
  intros f vm args n. apply wrap_range. unfold CyValue_bits. lia.
Qed.

(** Every value the modelled operations hand to the host is a [CyValue]. *)
Lemma boundary_values_are_CyValues :
  is_CyValue cyValueNone ∧ is_CyValue cyValueTrue ∧ is_CyValue cyValueFalse
  ∧ (∀ d, is_CyValue (cyValueNumber d))
  ∧ (∀ P st src rc st' v,
       cyVmEval P st src = Some (rc, st', Some v) → is_CyValue v).
Proof.
  do 4 (split; [try intros d; apply wrap_range; unfold CyValue_bits; lia |]).
  intros P st src rc st' v Heval.
  destruct (cyVmEval_cases _ _ _ _ _ _ Heval) as (_ & _ & _ & _ & Hne & Hok).
  destruct (decide (rc = CY_Success)) as [Heq|Hneq].
  - destruct (Hok Heq) as (v' & ? & Hv). simplify_eq. apply Hv.
  - by specialize (Hne Hneq).
Qed.

(** C3: over the whole lifetime of a VM handle, from [cyVmCreate] through
    any sequence of calls, the loader of a module name is invoked at most
    once, every script-level access to the module comes after that
    invocation, and registering the loader does not invoke it (the
    invocation is lazy, on first import). *)
Theorem loader_invoked_at_most_once (P : Pipeline) (addr : CyUserVM_ptr)
    (cap : Z) (calls : list Call) (st : CyUserVM) (name : string) :
  run P (cyVmCreate addr cap) calls = Some st →
  (loader_invocations name (history st) ≤ 1)%nat
  ∧ (∀ earlier later,
       history st = earlier ++ EvModuleAccess name :: later →
       EvLoaderInvoked name ∈ earlier)
  ∧ (∀ func st', cyVmAddModuleLoader st name func = Some st' →
                 history st' = history st).
Proof.
  intros Hrun.
  pose proof (run_inv P calls _ _ (cyVmCreate_inv addr cap) Hrun) as Hinv.
  destruct (Hinv name) as [Hafl Hcount].
  split; [| split].
  - rewrite loader_invocations_history.
    destruct (is_unloaded (modules st !! name)); [| lia].
    apply loader_never_invoked in Hcount. lia.
  - intros earlier later Hhist.
    apply elem_of_reverse. apply (Hafl (reverse later)).
    unfold history in Hhist.
    rewrite <- (reverse_involutive (trace st)), Hhist.
    by rewrite reverse_app, reverse_cons, <- app_assoc.
  - intros func st'. unfold cyVmAddModuleLoader, history.
    repeat case_match; intros ?; by simplify_eq.
Qed.

Lemma loader_invoked_at_most_once_witness :
  match run Demo.pipeline (cyVmCreate 4096 65536)
          [ CAddModuleLoader "math" Demo.math_loader;
            CEval "import math"; CEval "import math";
            CAddModuleLoader "math" Demo.math_loader;
            CEval "import math" ] with
  | Some st =>
      history st = [ EvLoaderInvoked "math"; EvModuleAccess "math"; EvExecute;
                     EvModuleAccess "math"; EvExecute;
                     EvModuleAccess "math"; EvExecute ]
      ∧ (loader_invocations "math" (history st) ≤ 1)%nat
      ∧ (∀ earlier later,
           history st = earlier ++ EvModuleAccess "math" :: later →
           EvLoaderInvoked "math" ∈ earlier)
      ∧ (∀ func st', cyVmAddModuleLoader st "math" func = Some st' →
                     history st' = history st)
  | None => False
  end.
Proof.
  destruct (run Demo.pipeline (cyVmCreate 4096 65536) _) as [st|] eqn:Hrun.
  - split.
    + vm_compute in Hrun. injection Hrun as <-. reflexivity.
    + exact (loader_invoked_at_most_once _ _ _ _ _ "math" Hrun).
  - vm_compute in Hrun. discriminate Hrun.
Defined.

(** C4: when [cyVmEval] returns [CY_ErrorToken], [CY_ErrorParse] or
    [CY_ErrorCompile], no execution began during the call and the
    persistent global environment of the VM is exactly what it was before
    the call. *)
Theorem static_error_leaves_globals (P : Pipeline) (st st' : CyUserVM)
    (src : string) (rc : CyResultCode) (out : option CyValue) :
  cyVmEval P st src = Some (rc, st', out) →
  rc = CY_ErrorToken ∨ rc = CY_ErrorParse ∨ rc = CY_ErrorCompile →
  globals st' = globals st
  ∧ executions (history st') = executions (history st)
  ∧ out = None.
Proof.
  intros Heval Hrc.
  destruct (cyVmEval_cases _ _ _ _ _ _ Heval)
    as (_ & _ & _ & Hstatic & Hfail & _).
  assert (Hs : is_static_error rc = true)
    by (destruct Hrc as [-> | [-> | ->]]; reflexivity).
  destruct (Hstatic Hs) as [Hg He].
  split; [done |]. split; [by rewrite !executions_history |].
  apply Hfail. by destruct Hrc as [-> | [-> | ->]].
Qed.

Lemma static_error_leaves_globals_witness :
  match cyVmEval Demo.pipeline Demo.defined_x "1 +" with
  | Some (rc, st', out) =>
      rc = CY_ErrorParse
      ∧ globals Demo.defined_x !! "x" = Some (cyValueNumber Demo.ten)
      ∧ globals st' = globals Demo.defined_x
      ∧ executions (history st') = executions (history Demo.defined_x)
      ∧ out = None
  | None => False
  end.
Proof.
  destruct (cyVmEval Demo.pipeline Demo.defined_x "1 +")
    as [[[rc st'] out]|] eqn:Heval; [| by vm_compute in Heval].
  assert (Hrc : rc = CY_ErrorParse).
  { pose proof Heval as Hval. vm_compute in Hval. congruence. }
  split; [exact Hrc |]. split; [reflexivity |].
  apply (static_error_leaves_globals Demo.pipeline Demo.defined_x st' "1 +"
           rc out Heval).
  right; left. exact Hrc.
Defined.

End VMClaims.

(* ===================================================================== *)
(** ** The model at work: scenarios of the specification *)
(* ===================================================================== *)

Section Scenarios.
Import CInt Header Double Value VM.

(** A quiet NaN whose payload falls in the boxed space is not a number
    value: its round trip is not defined. *)
Example boxed_payload_collides :
  is_quiet_nan cyValueNone = true
  ∧ cyValueAsDouble (cyValueNumber cyValueNone) = None.
Proof. split; reflexivity. Qed.

(** The primitive constructors decode to their variants. *)
Example primitive_values_classified :
  classify cyValueNone = VNone
  ∧ classify cyValueTrue = VBool true
  ∧ classify cyValueFalse = VBool false
  ∧ classify (cyValueNumber Demo.three) = VNumber Demo.three.
Proof. repeat split; reflexivity. Qed.

(** A parse error surfaces with its report. *)
Example scenario_parse_error :
  (λ r : eval_result, (r.1.1, cyVmGetLastErrorReport r.1.2, r.2))
    <$> cyVmEval Demo.pipeline Demo.fresh "1 +"
  = Some (CY_ErrorParse, Some "ParseError: unexpected end at 1:4", None).
Proof. vm_compute. reflexivity. Qed.

(** Registration and first import: the loader fires once and installs its
    function under (name, arity). *)
Example scenario_module_registration :
  (st ← run Demo.pipeline Demo.fresh
          [ CAddModuleLoader "math" Demo.math_loader; CEval "import math" ];
   Some (history st,
         match modules st !! "math" with
         | Some (Loaded table) => dom table
         | _ => ∅
         end))
  = Some ([ EvLoaderInvoked "math"; EvModuleAccess "math"; EvExecute ],
          {[ ("id", 1) ]}).
Proof. vm_compute. reflexivity. Qed.

(** An import of an unregistered name fails at compile time. *)
Example scenario_unregistered_import :
  (λ r : eval_result, (r.1.1, history r.1.2))
    <$> cyVmEval Demo.pipeline Demo.fresh "import math"
  = Some (CY_ErrorCompile, []).
Proof. vm_compute. reflexivity. Qed.

(** A runtime panic keeps the VM usable. *)
Example scenario_panic_keeps_vm_usable :
  (st ← run Demo.pipeline Demo.fresh [ CEval "panic('x')" ];
   (λ r : eval_result, (lastErrorReport st, r.1.1))
     <$> cyVmEval Demo.pipeline st "1+1")
  = Some ("panic: x", CY_Success).
Proof. vm_compute. reflexivity. Qed.

(** Two instances share nothing: a global defined on one is undefined on
    the other. *)
Example scenario_isolation :
  (λ r : eval_result, r.1.1)
    <$> (st ← run Demo.pipeline (cyVmCreate 4096 65536) [ CEval "x = 10" ];
         cyVmEval Demo.pipeline st "x") = Some CY_Success
  ∧ (λ r : eval_result, r.1.1)
      <$> cyVmEval Demo.pipeline (cyVmCreate 8192 65536) "x"
    = Some CY_ErrorCompile.
Proof. split; vm_compute; reflexivity. Qed.

(** The allocator gateway: a buffer is handed out and taken back with its
    size; a mismatched size is undefined. *)
Example scenario_allocator :
  (λ st, buffers st) <$> run Demo.pipeline Demo.fresh [ CAlloc 16; CFree 8 16 ]
    = Some ∅
  ∧ run Demo.pipeline Demo.fresh [ CAlloc 16; CFree 8 32 ] = None.
Proof. split; vm_compute; reflexivity. Qed.

End Scenarios.

(* ===================================================================== *)
(** ** More about [cstr] and the callback types *)
(* ===================================================================== *)

Section MacroFacts.
Import CInt Header Macro.

Lemma strlen_from_app (bytes rest : list Z) :
  NUL ∉ bytes →
  strlen_from (bytes ++ NUL :: rest) = Some (Z.of_nat (length bytes)).
Proof.
  induction bytes as [|b bytes IH]; intros Hnot; cbn [strlen_from app].
  - by rewrite decide_True.
  - apply not_elem_of_cons in Hnot as [Hb Hnot].
    rewrite decide_False by done. rewrite (IH Hnot). cbn. f_equal. lia.
Qed.

Lemma strlen_from_split (bytes : list Z) (n : Z) :
  strlen_from bytes = Some n →
  ∃ pre rest, bytes = pre ++ (NUL :: rest) ∧ (NUL ∉ pre)
              ∧ n = Z.of_nat (length pre).
Proof.
  revert n. induction bytes as [|b bytes IH]; intros n Hlen; [done |].
  cbn [strlen_from] in Hlen. destruct (decide (b = NUL)) as [->|Hb].
  - simplify_eq. exists [], bytes. split; [done |].
    split; [apply not_elem_of_nil | done].
  - destruct (strlen_from bytes) as [m|] eqn:Hm; [| done].
    cbn in Hlen. simplify_eq.
    destruct (IH m eq_refl) as (pre & rest & -> & Hpre & ->).
    exists (b :: pre), rest. split; [done |].
    split; [apply not_elem_of_cons; split; [congruence | done] |].
    cbn [length]. lia.
Qed.

Lemma strlen_from_undefined (bytes : list Z) :
  strlen_from bytes = None ↔ NUL ∉ bytes.
Proof.
  split.
  - intros Hnone Hin.
    destruct (strlen_from_terminated bytes Hin) as (n & Hn & _). congruence.
  - intros Hnot. destruct (strlen_from bytes) as [n|] eqn:Hn; [| done].
    destruct (strlen_from_split _ _ Hn) as (pre & rest & -> & _ & _).
    exfalso. apply Hnot. apply elem_of_app. right. by left.
Qed.

Lemma strlen_advance (X X' : c_string) (n i : Z) :
  strlen X = Some n → 0 <= i <= n → advance X i = Some X' →
  strlen X' = Some (n - i).
Proof.
  unfold strlen, advance. intros Hn Hi Hadv.
  destruct (strlen_from_split _ _ Hn) as (pre & rest & Hbuf & Hpre & ->).
  case_decide; [| done]. simplify_eq. cbn [buffer]. rewrite Hbuf.
  rewrite drop_app_le by lia.
  rewrite strlen_from_app.
  - rewrite length_drop. f_equal. lia.
  - intros Hin. apply Hpre. apply list_elem_of_lookup in Hin as [k Hk].
    rewrite lookup_drop in Hk. apply list_elem_of_lookup. by eexists.
Qed.

Lemma advance_defined (X : c_string) (n i : Z) :
  strlen X = Some n → 0 <= i <= n + 1 →
  advance X i
  = Some (CString (address X + i) (drop (Z.to_nat i) (buffer X))).
Proof.
  unfold strlen, advance. intros Hn Hi.
  destruct (strlen_from_split _ _ Hn) as (pre & rest & Hbuf & _ & ->).
  rewrite decide_True; [done |].
  rewrite Hbuf, length_app. cbn [length]. lia.
Qed.

(** With an argument free of side effects the expansion is [cstr]. *)
Lemma cstr_macro_pure {S : Type} (p : c_string) (s : S) :
  cstr_macro_lr (pure_expr p) s = (λ c, (c, s)) <$> cstr p
  ∧ cstr_macro_rl (pure_expr p) s = (λ c, (c, s)) <$> cstr p.
Proof.
  unfold cstr_macro_lr, cstr_macro_rl, pure_expr, cstr. cbn.
  by destruct (strlen p).
Qed.

End MacroFacts.

Section MacroProperties.
Import CInt Header Macro.

(** X1: [cstr] stops at the first NUL.  For bytes free of NUL followed by a
    NUL and anything else, the length is the number of bytes before that
    NUL, whatever follows it, and the bytes the [CStr] denotes are exactly
    those bytes. *)
Theorem cstr_stops_at_first_NUL (a : Z) (bytes rest : list Z) :
  NUL ∉ bytes →
  cstr (CString a (bytes ++ NUL :: rest))
  = Some {| charz := CString a (bytes ++ NUL :: rest);
            len := Z.of_nat (length bytes) |}
  ∧ CStr_bytes {| charz := CString a (bytes ++ NUL :: rest);
                  len := Z.of_nat (length bytes) |} = bytes.
Proof.
  intros Hnot. split.
  - unfold cstr, strlen. cbn [buffer]. by rewrite strlen_from_app.
  - unfold CStr_bytes. cbn [charz len buffer].
    rewrite Nat2Z.id. apply take_app_length.
Qed.

Lemma cstr_stops_at_first_NUL_witness :
  cstr (CString 4096 ([104; 105] ++ NUL :: [33; 0]))
  = Some {| charz := CString 4096 ([104; 105] ++ NUL :: [33; 0]);
            len := Z.of_nat (length [104; 105]) |}
  ∧ CStr_bytes {| charz := CString 4096 ([104; 105] ++ NUL :: [33; 0]);
                  len := Z.of_nat (length [104; 105]) |} = [104; 105].
Proof.
  apply (cstr_stops_at_first_NUL 4096 [104; 105] [33; 0]).
  unfold NUL. compute_done.
Defined.

(** X2: [cstr] is defined exactly on buffers that hold a NUL: without one
    [strlen] runs off the object and no [CStr] results; with one, the
    length is a valid index into the buffer, so the terminator lies inside
    the object. *)
Theorem cstr_defined_iff_terminated (X : c_string) :
  (cstr X = None ↔ NUL ∉ buffer X)
  ∧ (∀ s, cstr X = Some s →
          0 <= len s < Z.of_nat (length (buffer X))).
Proof.
  split.
  - unfold cstr, strlen. rewrite <- strlen_from_undefined.
    destruct (strlen_from (buffer X)); cbn; split; intros H; done.
  - unfold cstr, strlen. intros s Hs.
    destruct (strlen_from (buffer X)) as [n|] eqn:Hn; [| done].
    cbn in Hs. simplify_eq. cbn [len].
    destruct (strlen_from_split _ _ Hn) as (pre & rest & -> & _ & ->).
    rewrite length_app. cbn [length]. lia.
Qed.

(** X3: copying the bytes a [cstr] result denotes and terminating the copy
    gives a C string on which [cstr] yields the same length and the same
    bytes. *)
Theorem cstr_copy_round_trip (X : c_string) (s : CStr) (a : Z) :
  cstr X = Some s →
  cstr (CString a (CStr_bytes s ++ [NUL]))
  = Some {| charz := CString a (CStr_bytes s ++ [NUL]); len := len s |}
  ∧ CStr_bytes {| charz := CString a (CStr_bytes s ++ [NUL]); len := len s |}
    = CStr_bytes s.
Proof.
  unfold cstr, strlen. intros Hs.
  destruct (strlen_from (buffer X)) as [n|] eqn:Hn; [| done].
  cbn in Hs. simplify_eq.
  destruct (strlen_from_split _ _ Hn) as (pre & rest & Hbuf & Hpre & ->).
  assert (Hbytes : CStr_bytes {| charz := X; len := Z.of_nat (length pre) |}
                   = pre).
  { unfold CStr_bytes. cbn [charz len]. rewrite Hbuf, Nat2Z.id.
    apply take_app_length. }
  rewrite Hbytes. cbn [len]. apply cstr_stops_at_first_NUL. exact Hpre.
Qed.

Lemma cstr_copy_round_trip_witness :
  cstr (CString 8192
          (CStr_bytes {| charz := CString 4096 [104; 105; 0; 33]; len := 2 |}
           ++ [NUL]))
  = Some {| charz :=
              CString 8192
                (CStr_bytes {| charz := CString 4096 [104; 105; 0; 33];
                               len := 2 |} ++ [NUL]);
            len := 2 |}
  ∧ CStr_bytes
      {| charz :=
           CString 8192
             (CStr_bytes {| charz := CString 4096 [104; 105; 0; 33];
                            len := 2 |} ++ [NUL]);
         len := 2 |}
    = CStr_bytes {| charz := CString 4096 [104; 105; 0; 33]; len := 2 |}.
Proof.
  apply (cstr_copy_round_trip (CString 4096 [104; 105; 0; 33])
           {| charz := CString 4096 [104; 105; 0; 33]; len := 2 |} 8192).
  reflexivity.
Defined.

(** X4: [cstr] on a pointer advanced into the string.  For [0 <= i <= len]
    the pointer [X + i] is defined, [cstr(X + i)] has length [len - i], and
    both strings end at the same terminator address. *)
Theorem cstr_of_advanced_pointer (X : c_string) (s : CStr) (i : Z) :
  cstr X = Some s →
  0 <= i <= len s →
  ∃ X', advance X i = Some X'
        ∧ cstr X' = Some {| charz := X'; len := len s - i |}
        ∧ address X' + (len s - i) = address X + len s.
Proof.
  unfold cstr. intros Hs Hi.
  destruct (strlen X) as [n|] eqn:Hn; [| done].
  cbn in Hs. simplify_eq. cbn [len] in *.
  eexists. split; [apply (advance_defined X n i Hn); lia |].
  split.
  - erewrite strlen_advance;
      [done | exact Hn | done | apply (advance_defined X n i Hn); lia].
  - cbn [address]. lia.
Qed.

Lemma cstr_of_advanced_pointer_witness :
  ∃ X', advance (CString 4096 [104; 105; 0; 33]) 1 = Some X'
        ∧ cstr X' = Some {| charz := X'; len := 2 - 1 |}
        ∧ address X' + (2 - 1) = 4096 + 2.
Proof.
  apply (cstr_of_advanced_pointer (CString 4096 [104; 105; 0; 33])
           {| charz := CString 4096 [104; 105; 0; 33]; len := 2 |} 1).
  - reflexivity.
  - cbn. lia.
Defined.

(** X5: the macro evaluates its argument twice.  With [p++] as argument and
    a string of at least one character, the expansion is defined in either
    evaluation order and advances [p] twice, and in either order the [len]
    field is not the length of the string [charz] points to: one order
    pairs the old pointer with the length of the advanced string, the other
    the advanced pointer with the length of the old string. *)
Theorem cstr_macro_post_increment (p : c_string) (n : Z) :
  strlen p = Some n →
  1 <= n →
  ∃ p1 p2,
    advance p 1 = Some p1 ∧ advance p1 1 = Some p2
    ∧ cstr_macro_lr post_increment p
      = Some ({| charz := p; len := n - 1 |}, p2)
    ∧ cstr_macro_rl post_increment p
      = Some ({| charz := p1; len := n |}, p2)
    ∧ (∀ c st,
         cstr_macro_lr post_increment p = Some (c, st)
         ∨ cstr_macro_rl post_increment p = Some (c, st) →
         strlen (charz c) ≠ Some (len c)).
Proof.
  intros Hn Hge.
  pose proof (advance_defined p n 1 Hn ltac:(lia)) as Hp1.
  remember (CString (address p + 1) (drop (Z.to_nat 1) (buffer p)))
    as p1 eqn:Ep1. clear Ep1.
  assert (Hn1 : strlen p1 = Some (n - 1))
    by (apply (strlen_advance p p1 n 1); [done | lia | done]).
  pose proof (advance_defined p1 (n - 1) 1 Hn1 ltac:(lia)) as Hp2.
  remember (CString (address p1 + 1) (drop (Z.to_nat 1) (buffer p1)))
    as p2 eqn:Ep2. clear Ep2.
  assert (Hlr : cstr_macro_lr post_increment p
                = Some ({| charz := p; len := n - 1 |}, p2)).
  { unfold cstr_macro_lr, post_increment. rewrite Hp1. cbn.
    rewrite Hp2. cbn. by rewrite Hn1. }
  assert (Hrl : cstr_macro_rl post_increment p
                = Some ({| charz := p1; len := n |}, p2)).
  { unfold cstr_macro_rl, post_increment. rewrite Hp1. cbn.
    rewrite Hn. cbn. by rewrite Hp2. }
  exists p1, p2. split; [done |]. split; [done |].
  split; [done |]. split; [done |].
  intros c st [Hc | Hc]; rewrite ?Hlr, ?Hrl in Hc; simplify_eq; cbn [charz len].
  - rewrite Hn. intros Heq. injection Heq. lia.
  - rewrite Hn1. intros Heq. injection Heq. lia.
Qed.

Lemma cstr_macro_post_increment_witness :
  ∃ p1 p2,
    advance (CString 4096 [104; 105; 0]) 1 = Some p1
    ∧ advance p1 1 = Some p2
    ∧ cstr_macro_lr post_increment (CString 4096 [104; 105; 0])
      = Some ({| charz := CString 4096 [104; 105; 0]; len := 2 - 1 |}, p2)
    ∧ cstr_macro_rl post_increment (CString 4096 [104; 105; 0])
      = Some ({| charz := p1; len := 2 |}, p2)
    ∧ (∀ c st,
         cstr_macro_lr post_increment (CString 4096 [104; 105; 0])
           = Some (c, st)
         ∨ cstr_macro_rl post_increment (CString 4096 [104; 105; 0])
           = Some (c, st) →
         strlen (charz c) ≠ Some (len c)).
Proof.
  apply (cstr_macro_post_increment (CString 4096 [104; 105; 0]) 2).
  - reflexivity.
  - lia.
Defined.


(** X7: an arity registered through the [uint32_t numParams] parameter can
    be matched by the [uint8_t nargs] of some call exactly when it is at
    most 255. *)
Theorem arity_receivable_iff (numParams : Z) :
  in_range 32 numParams →
  (∃ n, CyFunc_nargs n = numParams_arg numParams) ↔ numParams <= 255.
Proof.
  intros Hp. unfold numParams_arg, uint32_t. rewrite (wrap_id 32) by done.
  unfold in_range in Hp. split.
  - intros [n Hn].
    pose proof (wrap_range 8 n ltac:(lia)) as Hr.
    unfold in_range in Hr. unfold CyFunc_nargs, uint8_t in Hn. lia.
  - intros Hle. exists numParams.
    unfold CyFunc_nargs, uint8_t. apply wrap_id. unfold in_range. lia.
Qed.

Lemma arity_receivable_iff_witness :
  (∃ n, CyFunc_nargs n = numParams_arg 3) ↔ 3 <= 255.
Proof.
  apply (arity_receivable_iff 3). unfold in_range. lia.
Defined.

End MacroProperties.
